(** * fairseq2 native data pipeline: the counting data source and the
      SentencePiece processor

    A shallow embedding of
    - [fairseq2/native/data/count_data_source.h] (class [count_data_source]),
    - [fairseq2/native/data/text/sentencepiece/sp_processor.cc]
      (classes [sp_model_loader] and [sp_processor]),
    followed by the properties of the specification that concern them.

    Conventions.  C++ integers are values of [Z] together with the range of
    their type ([representable]); a function that can throw returns
    [except A], the sum of the thrown exception and the returned value;
    member functions take the object's state and return the new one. *)

From Stdlib Require Import ZArith Lia.
From stdpp Require Import base option list strings.

Local Open Scope Z_scope.

(** ** C++ integer types *)

Inductive ctype := int_t | int32_t | int64_t | size_t.

(** The values of a C++ integer type ([int] is 32 bits wide and [size_t] 64
    bits wide on the platforms fairseq2 builds for). *)
Definition representable (T : ctype) (z : Z) : Prop :=
  match T with
  | int_t | int32_t => - 2 ^ 31 <= z < 2 ^ 31
  | int64_t => - 2 ^ 63 <= z < 2 ^ 63
  | size_t => 0 <= z < 2 ^ 64
  end.

(** [static_cast<T>(z)]: the value of [T] congruent to [z] modulo the width
    of [T] (the conversion C++20 defines, and what every supported compiler
    does). *)
Definition static_cast (T : ctype) (z : Z) : Z :=
  match T with
  | int_t | int32_t => (z + 2 ^ 31) mod 2 ^ 32 - 2 ^ 31
  | int64_t => (z + 2 ^ 63) mod 2 ^ 64 - 2 ^ 63
  | size_t => z mod 2 ^ 64
  end.

(** ** Exceptions *)

Inductive errc := no_such_file_or_directory | permission_denied.

(** The exceptions the two classes throw: [std::system_error] built from an
    [std::errc], [std::runtime_error] and [std::domain_error] with their
    [what()] message. *)
Inductive exception :=
| system_error (ec : errc)
| runtime_error (what : string)
| domain_error (what : string).

Definition except (A : Type) : Type := exception + A.

Definition throw {A : Type} (e : exception) : except A := inl e.

#[global] Instance except_ret : MRet except := fun A x => inr x.

#[global] Instance except_bind : MBind except := fun A B f m =>
  match m with
  | inl e => inl e
  | inr x => f x
  end.

(** * Part I: the counting data source *)

Module Count.

(** ** Data and tape *)

(** Modelled from the spec: the records a data source produces and a tape
    stores ([data], declared in [fairseq2/native/data/data.h], is not among
    the source files).  The spec calls it an opaque tagged record type; the
    tags kept here are the integer one the counting source produces and two
    others, so that a tape can hold a value of the wrong type. *)
Inductive data :=
| data_bool (b : bool)
| data_int64 (v : Z)
| data_string (s : string).

(** Modelled from the spec: the position tape ([tape], declared in
    [fairseq2/native/data/tape.h], is not among the source files): an ordered
    sequence of typed values, append-only while recording, with a read
    cursor that consumes it front to back. *)
Record tape := Tape { storage_ : list data; iter_ : nat }.

Definition empty_tape : tape := Tape [] 0.

(** [t.record(d)]: appends [d]; the cursor stays. *)
Definition tape_record (t : tape) (d : data) : tape :=
  Tape (storage_ t ++ [d]) (iter_ t).

(** [t.read<std::int64_t>()]: the value under the cursor, which then moves
    on by one.  A tape that is exhausted or holds a value of another type
    there violates the contract of the tape ([None]). *)
Definition tape_read_int64 (t : tape) : option (Z * tape) :=
  match storage_ t !! iter_ t with
  | Some (data_int64 v) => Some (v, Tape (storage_ t) (S (iter_ t)))
  | _ => None
  end.

(** [t.rewind()]: puts the cursor back to the first value. *)
Definition tape_rewind (t : tape) : tape := Tape (storage_ t) 0.

(** ** The data source interface *)

(** The abstract class [data_source]: the four pure virtual member functions
    every data source overrides. *)
Class data_source (S : Type) := {
  next : S -> option data * S;
  reset : S -> S;
  record_position : S -> tape -> tape;
  reload_position : S -> tape -> option (S * tape)
}.

(** ** count_data_source *)

(** The two private members; both are [std::int64_t]. *)
Record count_data_source := Build_count { start_ : Z; counter_ : Z }.

(** The constructor: [start_{start}, counter_{start}]. *)
Definition make_count (start : Z) : count_data_source :=
  Build_count start start.

(** Modelled from the spec: the bodies of the four member functions (the
    header under [src/] declares them, [count_data_source.cc] defines them).
    [next] always succeeds, returns the current counter, then increments it;
    [reset] sets the counter back to [start_]; [record_position] writes the
    counter only; [reload_position] reads the counter only and leaves
    [start_] untouched.  The counter is incremented as an integer: the
    stream the spec describes is infinite and strictly increasing, and an
    [std::int64_t] that would pass [2^63 - 1] has no defined value. *)
Definition count_next (s : count_data_source) : option data * count_data_source :=
  (Some (data_int64 (counter_ s)), Build_count (start_ s) (counter_ s + 1)).

Definition count_reset (s : count_data_source) : count_data_source :=
  Build_count (start_ s) (start_ s).

Definition count_record_position (s : count_data_source) (t : tape) : tape :=
  tape_record t (data_int64 (counter_ s)).

Definition count_reload_position (s : count_data_source) (t : tape)
  : option (count_data_source * tape) :=
  '(v, t') ← tape_read_int64 t;
  Some (Build_count (start_ s) v, t').

#[global] Instance count_is_data_source : data_source count_data_source := {
  next := count_next;
  reset := count_reset;
  record_position := count_record_position;
  reload_position := count_reload_position
}.

(** ** Driving a data source *)

(** [advance k s]: [k] calls of [next()], with the records they returned (a
    call that reports the end of the stream contributes none) and the state
    they leave. *)
Fixpoint advance {S : Type} `{data_source S} (k : nat) (s : S) : list data * S :=
  match k with
  | O => ([], s)
  | Datatypes.S k' =>
      let '(o, s1) := next s in
      let '(ds, s2) := advance k' s1 in
      (match o with Some d => d :: ds | None => ds end, s2)
  end.

(** The records [from], [from + 1], ..., [from + k - 1]. *)
Fixpoint ints (from : Z) (k : nat) : list data :=
  match k with
  | O => []
  | Datatypes.S k' => data_int64 from :: ints (from + 1) k'
  end.

(** The calls a pipeline makes on a data source and the tape it keeps for
    it. *)
Inductive call := call_next | call_reset | call_record | call_reload | call_rewind.

(** One call on a source and its tape.  A [reload_position] that finds the
    tape corrupt has no successor state. *)
Inductive step {S : Type} `{data_source S} : S * tape -> call -> S * tape -> Prop :=
| step_next s t : step (s, t) call_next ((next s).2, t)
| step_reset s t : step (s, t) call_reset (reset s, t)
| step_record s t : step (s, t) call_record (s, record_position s t)
| step_reload s t s' t' :
    reload_position s t = Some (s', t') -> step (s, t) call_reload (s', t')
| step_rewind s t : step (s, t) call_rewind (s, tape_rewind t).

(** A sequence of calls. *)
Inductive steps {S : Type} `{data_source S} : S * tape -> list call -> S * tape -> Prop :=
| steps_nil st : steps st [] st
| steps_cons st1 c st2 cs st3 :
    step st1 c st2 -> steps st2 cs st3 -> steps st1 (c :: cs) st3.

End Count.

(** * Part II: the SentencePiece model loader and processor *)

Module SP.

(** ** The model protobuf *)

(** [ModelProto_SentencePiece::Type]. *)
Inductive piece_type := NORMAL | UNKNOWN | CONTROL | USER_DEFINED | UNUSED | BYTE.

(** The message [ModelProto.SentencePiece]: the surface string, the score
    (a [float] the loader never reads, kept as its 32 bits) and the type. *)
Record ModelProto_SentencePiece := Build_piece {
  piece : string;
  score : Z;
  type : piece_type
}.

(** A message that was just added holds the defaults of its fields. *)
Definition default_piece : ModelProto_SentencePiece :=
  Build_piece EmptyString 0 NORMAL.

Definition set_piece (sp : ModelProto_SentencePiece) (s : string) :=
  Build_piece s (score sp) (type sp).

Definition set_type (sp : ModelProto_SentencePiece) (ty : piece_type) :=
  Build_piece (piece sp) (score sp) ty.

(** The part of [ModelProto] the loader touches: the [pad_piece] field of
    its trainer spec and the repeated field [pieces], whose index is the
    vocabulary id. *)
Record ModelProto := Build_proto {
  pad_piece : string;
  pieces : list ModelProto_SentencePiece
}.

(** [mutable_trainer_spec()->set_pad_piece(s)]. *)
Definition set_pad_piece (p : ModelProto) (s : string) : ModelProto :=
  Build_proto s (pieces p).

(** [RepeatedPtrField::SwapElements(i, j)]: exchanges the elements at the
    two indices.  (Indices outside the field are not checked by protobuf;
    the loader never passes any, and the model leaves the list alone.) *)
Definition SwapElements {A : Type} (i j : nat) (l : list A) : list A :=
  match l !! i, l !! j with
  | Some x, Some y => <[i := y]> (<[j := x]> l)
  | _, _ => l
  end.

(** The loop [for (int i = ...; i > 0; --i) pieces->SwapElements(i, i - 1)]
    from a given [i]. *)
Fixpoint swap_down {A : Type} (i : nat) (l : list A) : list A :=
  match i with
  | O => l
  | S i' => swap_down i' (SwapElements i i' l)
  end.

(** The loop started at [pieces->size() - 1].  (On an empty field the C++
    index starts at -1 and the loop body never runs, as here.) *)
Definition move_last_to_front {A : Type} (l : list A) : list A :=
  swap_down (length l - 1) l.

(** ** The SentencePiece library *)

(** [sentencepiece::util::StatusCode] and [sentencepiece::util::Status]: a
    status is [ok()] exactly when its code is [kOk]. *)
Inductive StatusCode :=
| kOk | kCancelled | kUnknown | kInvalidArgument | kDeadlineExceeded
| kNotFound | kAlreadyExists | kPermissionDenied | kResourceExhausted
| kFailedPrecondition | kAborted | kOutOfRange | kUnimplemented | kInternal
| kUnavailable | kDataLoss | kUnauthenticated.

#[global] Instance StatusCode_eq_dec : EqDecision StatusCode.
Proof. solve_decision. Defined.

Record Status := Build_status { code : StatusCode; message : string }.

Definition ok (st : Status) : bool := bool_decide (code st = kOk).

(** Modelled from the spec: the compiled segmentation engine
    ([sentencepiece::SentencePieceProcessor], a library fairseq2 links
    against).  It is immutable and exposes its piece count, the reserved
    indices of the unknown, begin, end and pad tokens, and the two lookups:
    the vocabulary is an ordered list of pieces whose index is the
    vocabulary id. *)
Record SentencePieceProcessor := Build_engine {
  engine_pieces : list ModelProto_SentencePiece;
  unk_id : Z;
  bos_id : Z;
  eos_id : Z;
  pad_id : Z
}.

(** Modelled from the spec: [GetPieceSize] is the piece count of the
    engine. *)
Definition GetPieceSize (e : SentencePieceProcessor) : Z :=
  Z.of_nat (length (engine_pieces e)).

(** The first index of [l] whose piece has the surface [token]. *)
Fixpoint piece_index (token : string) (l : list ModelProto_SentencePiece) : option nat :=
  match l with
  | [] => None
  | sp :: l' =>
      if decide (piece sp = token) then Some O else S <$> piece_index token l'
  end.

(** Modelled from the spec: [PieceToId] returns the vocabulary id of the
    token, or the reserved unknown-token id if the token is absent. *)
Definition PieceToId (e : SentencePieceProcessor) (token : string) : Z :=
  match piece_index token (engine_pieces e) with
  | Some i => Z.of_nat i
  | None => unk_id e
  end.

(** Modelled from the spec: [IdToPiece] returns the surface of the piece
    with the given id (an id outside the vocabulary is never passed by
    [sp_processor]). *)
Definition IdToPiece (e : SentencePieceProcessor) (id : Z) : string :=
  match engine_pieces e !! Z.to_nat id with
  | Some sp => piece sp
  | None => EmptyString
  end.

(** Modelled from the spec: what an engine guarantees about the values it
    exposes.  They are [int]s, and a reserved index is either negative (the
    token is not defined) or the index of a piece. *)
Record engine_ok (e : SentencePieceProcessor) : Prop := {
  piece_size_int : representable int_t (GetPieceSize e);
  unk_id_int : representable int_t (unk_id e);
  bos_id_int : representable int_t (bos_id e);
  eos_id_int : representable int_t (eos_id e);
  pad_id_int : representable int_t (pad_id e);
  pad_id_piece : pad_id e < GetPieceSize e
}.

(** Modelled from the spec: the pad index an engine exposes is the reserved
    index of the pad token, that is, of a control piece of the model it was
    compiled from whose surface is the designated pad piece of that model;
    an engine compiled from a model [m] without such a piece exposes a
    negative pad index. *)
Definition pad_id_names_pad_piece (m : ModelProto) (e : SentencePieceProcessor) : Prop :=
  0 <= pad_id e ->
  exists sp : ModelProto_SentencePiece,
    pieces m !! Z.to_nat (pad_id e) = Some sp /\
    piece sp = pad_piece m /\ type sp = CONTROL.

(** What the translation unit takes from outside the source files: the two
    entry points of the SentencePiece library that read and compile a model
    (each returns its status and what it produced), and fairseq2's
    [conditional_cast] from [fairseq2/native/utils/cast.h]. *)
Class Externals := {
  (** [sentencepiece::io::LoadModelProto(pathname, proto)] *)
  LoadModelProto : string -> Status * ModelProto;
  (** [SentencePieceProcessor::Load(std::unique_ptr<ModelProto>)] *)
  processor_Load : ModelProto -> Status * SentencePieceProcessor;
  (** [conditional_cast<T>(value)] *)
  conditional_cast : ctype -> Z -> Z
}.

(** A cast returns the value it is given whenever the target type can hold
    it. *)
Definition cast_exact `{Externals} : Prop :=
  forall T z, representable T z -> conditional_cast T z = z.

(** ** sp_model_loader *)

(** [sp_model_options] (declared in [sp_processor.h]): the part the loader
    reads, the list [control_tokens()]. *)
Record sp_model_options := Build_options { control_tokens : list string }.

Section Loader.
Context `{E : Externals}.

(** [load_proto]: the status of [LoadModelProto] decides between returning
    (the loaded [proto_]) and the three [throw]s. *)
Definition load_proto (pathname_ : string) : except ModelProto :=
  let '(st, proto_) := LoadModelProto pathname_ in
  if ok st then mret proto_
  else if decide (code st = kNotFound) then
    throw (system_error no_such_file_or_directory)
  else if decide (code st = kPermissionDenied) then
    throw (system_error permission_denied)
  else throw (runtime_error (message st)).

(** [add_piece]: a new message at the end of [pieces], then its surface and
    its type are set. *)
Definition add_piece (proto_ : ModelProto) (s : string) : ModelProto :=
  let sp := default_piece in
  let sp := set_piece sp s in
  let sp := set_type sp CONTROL in
  Build_proto (pad_piece proto_) (pieces proto_ ++ [sp]).

(** The body of the loop of [add_control_tokens] for one [token]. *)
Definition add_control_token (proto_ : ModelProto) (token : string) : ModelProto :=
  if decide (token = EmptyString) then proto_
  else if decide (token = "<pad>" \/ token = "<pad>@0") then
    let proto_ := set_pad_piece proto_ "<pad>" in
    let proto_ := add_piece proto_ "<pad>" in
    if decide (token = "<pad>@0") then
      Build_proto (pad_piece proto_) (move_last_to_front (pieces proto_))
    else proto_
  else add_piece proto_ token.

(** [add_control_tokens]: the loop over [opts_.control_tokens()], in order.
    (The loop moves a token out of the options when it adds it as a piece;
    the options are not read again.) *)
Definition add_control_tokens (opts_ : sp_model_options) (proto_ : ModelProto)
  : ModelProto :=
  foldl add_control_token proto_ (control_tokens opts_).

(** [load_processor]: compiles [proto_]; a status that is not ok is thrown
    as a [std::runtime_error] with its message. *)
Definition load_processor (proto_ : ModelProto) : except SentencePieceProcessor :=
  let '(st, processor_) := processor_Load proto_ in
  if ok st then mret processor_ else throw (runtime_error (message st)).

(** [load]: the three steps in a row; an exception of a step leaves
    [load]. *)
Definition load (pathname_ : string) (opts_ : sp_model_options)
  : except SentencePieceProcessor :=
  proto_ ← load_proto pathname_;
  load_processor (add_control_tokens opts_ proto_).

(** ** sp_processor *)

Record sp_processor := Build_processor {
  native_ : SentencePieceProcessor;
  unk_idx : Z;
  bos_idx : Z;
  eos_idx : Z;
  pad_idx : Z;
  vocab_size : Z
}.

Definition no_pad_message : string :=
  "The model has no padding token specified.".

Definition out_of_range_message : string :=
  "The specified index is out of range.".

(** The constructor [sp_processor::sp_processor(model_pathname, opts)]. *)
Definition make_sp_processor (model_pathname : string) (opts : sp_model_options)
  : except sp_processor :=
  native ← load model_pathname opts;
  let unk := conditional_cast int32_t (unk_id native) in
  let bos := conditional_cast int32_t (bos_id native) in
  let eos := conditional_cast int32_t (eos_id native) in
  let pad := conditional_cast int32_t (pad_id native) in
  if decide (pad < 0) then throw (runtime_error no_pad_message)
  else
    mret (Build_processor native unk bos eos pad
            (conditional_cast size_t (GetPieceSize native))).

(** [token_to_index]: no [throw] on any path. *)
Definition token_to_index (p : sp_processor) (token : string) : except Z :=
  mret (conditional_cast int32_t (PieceToId (native_ p) token)).

(** [index_to_token]: the guard compares [static_cast<std::size_t>(idx)]
    with [vocab_size]. *)
Definition index_to_token (p : sp_processor) (idx : Z) : except string :=
  if decide (static_cast size_t idx >= vocab_size p) then
    throw (domain_error out_of_range_message)
  else mret (IdToPiece (native_ p) (conditional_cast int_t idx)).

End Loader.

(** ** Vocabulary of the statements *)

#[global] Instance piece_type_eq_dec : EqDecision piece_type.
Proof. solve_decision. Defined.

#[global] Instance ModelProto_SentencePiece_eq_dec : EqDecision ModelProto_SentencePiece.
Proof. solve_decision. Defined.

(** The two spellings of the padding token in [control_tokens()]: the
    condition of the first branch of [add_control_tokens]. *)
Definition is_pad_marker (token : string) : Prop :=
  token = "<pad>" \/ token = "<pad>@0".

#[global] Instance is_pad_marker_dec (token : string) : Decision (is_pad_marker token).
Proof. unfold is_pad_marker. apply _. Defined.

(** The piece [add_piece("<pad>")] appends. *)
Definition pad_control : ModelProto_SentencePiece := Build_piece "<pad>" 0 CONTROL.

(** ** Concrete instances *)

(** Three pieces of a model that has no pad piece. *)
Definition three_pieces : list ModelProto_SentencePiece :=
  [Build_piece "<unk>" 0 UNKNOWN; Build_piece "a" (-1) NORMAL;
   Build_piece "b" (-2) NORMAL].

(** The pad id of a toy compiler: the index of the piece [pad_piece] names
    if that piece is a control piece, and -1 otherwise. *)
Definition pad_id_of (p : ModelProto) : Z :=
  match piece_index (pad_piece p) (pieces p) with
  | Some i =>
      match pieces p !! i with
      | Some (Build_piece _ _ CONTROL) => Z.of_nat i
      | _ => -1
      end
  | None => -1
  end.

(** An environment in which every model file holds [three_pieces], the
    compiler keeps the pieces in their order, reports 0 as the unknown id
    and [pad_id_of] as the pad id, and a cast is a [static_cast]. *)
Definition demo_externals : Externals := {|
  LoadModelProto := fun _ => (Build_status kOk EmptyString, Build_proto "<pad>" three_pieces);
  processor_Load := fun p =>
    (Build_status kOk EmptyString, Build_engine (pieces p) 0 (-1) (-1) (pad_id_of p));
  conditional_cast := static_cast
|}.

(** The processor built in [demo_externals] with the legacy padding marker
    as the only control token: the pad piece has id 0 and the vocabulary
    has four pieces. *)
Definition demo_options : sp_model_options := Build_options ["<pad>@0"].

Definition demo_engine : SentencePieceProcessor :=
  Build_engine (pad_control :: three_pieces) 0 (-1) (-1) 0.

Definition demo_processor : sp_processor :=
  Build_processor demo_engine 0 (-1) (-1) 0 4.

(** Three pieces of a model that was trained with a pad piece of its own. *)
Definition own_pad_pieces : list ModelProto_SentencePiece :=
  [Build_piece "<unk>" 0 UNKNOWN; Build_piece "<pad>" 0 CONTROL;
   Build_piece "a" (-1) NORMAL].

(** The environment [demo_externals] with [own_pad_pieces] in every model
    file. *)
Definition own_pad_externals : Externals := {|
  LoadModelProto := fun _ => (Build_status kOk EmptyString, Build_proto "<pad>" own_pad_pieces);
  processor_Load := fun p =>
    (Build_status kOk EmptyString, Build_engine (pieces p) 0 (-1) (-1) (pad_id_of p));
  conditional_cast := static_cast
|}.

(** An environment in which no model file exists. *)
Definition absent_externals : Externals := {|
  LoadModelProto := fun _ => (Build_status kNotFound "No such file", Build_proto EmptyString []);
  processor_Load := fun p =>
    (Build_status kOk EmptyString, Build_engine (pieces p) 0 (-1) (-1) (pad_id_of p));
  conditional_cast := static_cast
|}.

End SP.

(** * Part III: properties of the counting data source *)

Section CountProperties.
Import Count.

(** [k] calls of [next()] return the [k] integers from the counter on and
    move the counter by [k]; [start_] stays. *)
Lemma advance_count (k : nat) (s : count_data_source) :
  advance k s = (ints (counter_ s) k, Build_count (start_ s) (counter_ s + Z.of_nat k)).
Proof.
  revert s. induction k as [|k IH]; intros [st c]; cbn [advance ints].
  - cbn. by rewrite Z.add_0_r.
  - cbn [next count_is_data_source count_next counter_ start_].
    rewrite IH. cbn [counter_ start_]. do 2 f_equal. lia.
Qed.

(** The [i]-th record of [ints from k] is [from + i]. *)
Lemma ints_lookup (from : Z) (k i : nat) :
  (i < k)%nat -> ints from k !! i = Some (data_int64 (from + Z.of_nat i)).
Proof.
  revert from i. induction k as [|k IH]; intros from [|i] Hi; try lia; cbn.
  - by rewrite Z.add_0_r.
  - rewrite IH by lia. do 2 f_equal. lia.
Qed.

Lemma ints_length (from : Z) (k : nat) : length (ints from k) = k.
Proof. revert from. induction k as [|k IH]; intros from; cbn; [done | by rewrite IH]. Qed.

(** A run of [k + m] integers is a run of [k] followed by the run of [m]
    that starts where the first one stopped. *)
Lemma ints_app (from : Z) (k m : nat) :
  ints from (k + m) = ints from k ++ ints (from + Z.of_nat k) m.
Proof.
  revert from. induction k as [|k IH]; intros from; cbn [ints Nat.add app].
  - by rewrite Z.add_0_r.
  - rewrite IH. do 3 f_equal. lia.
Qed.

(** As long as the counter stays below the largest [std::int64_t], the
    integers of the model are the values the C++ member holds. *)
Lemma ints_representable (from : Z) (k i : nat) (d : data) :
  representable int64_t from -> from + Z.of_nat k <= 2 ^ 63 ->
  ints from k !! i = Some d ->
  exists v, d = data_int64 v /\ representable int64_t v.
Proof.
  intros Hf Hk Hd.
  assert (i < k)%nat as Hi.
  { apply lookup_lt_Some in Hd. by rewrite ints_length in Hd. }
  rewrite ints_lookup in Hd by done. injection Hd as <-.
  eexists. split; [done|]. unfold representable in *. lia.
Qed.

(** Reading a tape whose cursor stands on an integer. *)
Lemma tape_read_record (t : tape) (v : Z) :
  iter_ t = length (storage_ t) ->
  tape_read_int64 (tape_record t (data_int64 v))
  = Some (v, Tape (storage_ t ++ [data_int64 v]) (S (iter_ t))).
Proof.
  intros Hend. unfold tape_read_int64, tape_record. cbn [storage_ iter_].
  rewrite Hend, lookup_app_r by lia. by rewrite Nat.sub_diag.
Qed.

(** What [reload_position] returns after [record_position], for two sources
    of any configuration and a tape read up to its end. *)
Lemma reload_after_record (p q : count_data_source) (t : tape) :
  iter_ t = length (storage_ t) ->
  reload_position q (record_position p t)
  = Some (Build_count (start_ q) (counter_ p),
          Tape (storage_ t ++ [data_int64 (counter_ p)]) (S (iter_ t))).
Proof.
  intros Hend. cbn [reload_position record_position count_is_data_source].
  unfold count_reload_position, count_record_position.
  by rewrite tape_read_record.
Qed.

(** One call leaves [start_] as it was. *)
Lemma step_start (st st' : count_data_source * tape) (c : call) :
  step st c st' -> start_ st'.1 = start_ st.1.
Proof.
  destruct 1 as [s t|s t|s t|s t s' t' Hr|s t]; cbn; try done.
  cbn in Hr. unfold count_reload_position in Hr.
  destruct (tape_read_int64 t) as [[v t1]|]; cbn in Hr; [|done].
  by injection Hr as <- _.
Qed.

(** C2.  Checkpoint and resume: a source started at [n] and advanced [k]
    times records its position; a fresh source with the same start reloads
    it and is advanced [m] times.  The records of the two runs, one after
    the other, are those of one run of [k + m] calls from [n]: the first
    run returns [n .. n+k-1], the second [n+k .. n+k+m-1], so no value is
    returned twice or left out, and the resumed source ends in the state of
    the uninterrupted one. *)
Theorem count_checkpoint_resume (n : Z) (k m : nat) (t : tape) :
  iter_ t = length (storage_ t) ->
  exists (b : count_data_source) (t' : tape),
    reload_position (make_count n) (record_position (advance k (make_count n)).2 t)
      = Some (b, t') /\
    (advance k (make_count n)).1 ++ (advance m b).1
      = (advance (k + m) (make_count n)).1 /\
    (advance k (make_count n)).1 = ints n k /\
    (advance m b).1 = ints (n + Z.of_nat k) m /\
    (advance m b).2 = (advance (k + m) (make_count n)).2.
Proof.
  intros Hend. rewrite !advance_count. cbn [fst snd make_count counter_ start_].
  eexists _, _. split; [by apply reload_after_record|].
  rewrite !advance_count. cbn [fst snd counter_ start_].
  rewrite ints_app. repeat split. f_equal. lia.
Qed.

Lemma count_checkpoint_resume_witness :
  exists (b : count_data_source) (t' : tape),
    reload_position (make_count 5) (record_position (advance 2 (make_count 5)).2 empty_tape)
      = Some (b, t') /\
    (advance 2 (make_count 5)).1 ++ (advance 3 b).1
      = (advance (2 + 3) (make_count 5)).1 /\
    (advance 2 (make_count 5)).1 = ints 5 2 /\
    (advance 3 b).1 = ints (5 + Z.of_nat 2) 3 /\
    (advance 3 b).2 = (advance (2 + 3) (make_count 5)).2.
Proof. apply (count_checkpoint_resume 5 2 3 empty_tape). reflexivity. Defined.

(** C7.  [reset()] on a source with start [s], after any number [k] of
    [next()] calls, gives the state the constructor gives; [start_] is not
    affected; and the next [j] calls return [s], [s + 1], ..., [s + j - 1]. *)
Theorem count_reset_restarts (s : Z) (k j : nat) :
  reset (advance k (make_count s)).2 = make_count s /\
  start_ (reset (advance k (make_count s)).2) = start_ (advance k (make_count s)).2 /\
  start_ (advance k (make_count s)).2 = s /\
  (advance j (reset (advance k (make_count s)).2)).1 = ints s j /\
  (forall i : nat, (i < j)%nat ->
     (advance j (reset (advance k (make_count s)).2)).1 !! i
       = Some (data_int64 (s + Z.of_nat i))).
Proof.
  rewrite advance_count. cbn [snd make_count reset count_is_data_source count_reset start_].
  rewrite advance_count. cbn [fst counter_].
  repeat split. intros i Hi. by apply ints_lookup.
Qed.

Lemma count_reset_restarts_witness :
  (advance 4 (reset (advance 7 (make_count 10)).2)).1 !! 3%nat
    = Some (data_int64 (10 + Z.of_nat 3)).
Proof.
  apply (count_reset_restarts 10 7 4). lia.
Defined.

(** C8.  [record_position] appends the counter, one integer, to the tape
    and nothing else; a successful [reload_position] consumes the one
    integer under the cursor into the counter and leaves [start_]; after a
    [record_position] it restores the recorded counter; and [start_] is the
    same after any sequence of calls. *)
Theorem count_position_frame :
  (forall (p : count_data_source) (t : tape),
     record_position p t = Tape (storage_ t ++ [data_int64 (counter_ p)]) (iter_ t)) /\
  (forall (q q' : count_data_source) (t t' : tape),
     reload_position q t = Some (q', t') ->
     start_ q' = start_ q /\
     storage_ t !! iter_ t = Some (data_int64 (counter_ q')) /\
     t' = Tape (storage_ t) (S (iter_ t))) /\
  (forall (p q : count_data_source) (t : tape),
     iter_ t = length (storage_ t) ->
     reload_position q (record_position p t)
     = Some (Build_count (start_ q) (counter_ p),
             Tape (storage_ t ++ [data_int64 (counter_ p)]) (S (iter_ t)))) /\
  (forall (st st' : count_data_source * tape) (cs : list call),
     steps st cs st' -> start_ st'.1 = start_ st.1).
Proof.
  split; [done|]. split; [|split].
  - intros q q' t t' Hr. cbn in Hr.
    unfold count_reload_position, tape_read_int64 in Hr.
    destruct (storage_ t !! iter_ t) as [[b|v|s]|] eqn:Hl; cbn in Hr; try done.
    by injection Hr as <- <-.
  - apply reload_after_record.
  - intros st st' cs Hs. induction Hs as [st|st1 c st2 cs st3 H1 _ IH]; [done|].
    rewrite IH. by eapply step_start.
Qed.

Lemma count_position_frame_witness :
  start_ (Build_count 3 3, Tape [data_int64 4; data_int64 3] 2).1
  = start_ (make_count 3, empty_tape).1.
Proof.
  refine (proj2 (proj2 (proj2 count_position_frame)) _ _
            [call_next; call_record; call_next; call_reset; call_record;
             call_rewind; call_reload; call_reload] _).
  repeat (eapply steps_cons; [first [apply step_next | apply step_reset
            | apply step_record | apply step_rewind
            | apply step_reload; reflexivity] |]).
  cbn. apply steps_nil.
Defined.

End CountProperties.

(** * Part IV: properties of the model loader *)

Section LoaderProperties.
Import SP.

(** ** The relocation loop *)

(** Swapping below a head element. *)
Lemma SwapElements_cons {A : Type} (a : A) (l : list A) (i j : nat) :
  SwapElements (S i) (S j) (a :: l) = a :: SwapElements i j l.
Proof.
  unfold SwapElements. cbn [lookup list_lookup].
  by destruct (l !! i), (l !! j).
Qed.

(** A swap of two neighbours. *)
Lemma SwapElements_adjacent {A : Type} (pre post : list A) (x y : A) :
  SwapElements (S (length pre)) (length pre) (pre ++ y :: x :: post)
  = pre ++ x :: y :: post.
Proof.
  induction pre as [|a pre IH]; [done|].
  cbn [length app]. by rewrite SwapElements_cons, IH.
Qed.

(** The loop started on an element carries it to the front, past each
    element before it, and leaves what follows it. *)
Lemma swap_down_front {A : Type} (pre post : list A) (x : A) :
  swap_down (length pre) (pre ++ x :: post) = x :: pre ++ post.
Proof.
  revert post. induction pre as [|y pre IH] using rev_ind; intros post; [done|].
  rewrite length_app, Nat.add_1_r. cbn [length swap_down].
  rewrite <- !(assoc_L (++)). cbn [app].
  by rewrite SwapElements_adjacent, IH.
Qed.

Lemma move_last_to_front_snoc {A : Type} (l : list A) (x : A) :
  move_last_to_front (l ++ [x]) = x :: l.
Proof.
  unfold move_last_to_front.
  replace (length (l ++ [x]) - 1)%nat with (length l)
    by (rewrite length_app; cbn; lia).
  by rewrite swap_down_front, app_nil_r.
Qed.

(** The loop is the sequence of the swaps of [j + 1] and [j], for [j] from
    [i - 1] down to 0. *)
Lemma swap_down_foldl {A : Type} (i : nat) (l : list A) :
  swap_down i l = foldl (fun acc j => SwapElements (S j) j acc) l (reverse (seq 0 i)).
Proof.
  revert l. induction i as [|i IH]; intros l; [done|].
  rewrite seq_S, reverse_snoc. cbn [swap_down foldl Nat.add]. apply IH.
Qed.

(** ** One control token *)

Lemma add_control_token_empty (proto_ : ModelProto) :
  add_control_token proto_ EmptyString = proto_.
Proof. done. Qed.

Lemma add_control_token_pad (proto_ : ModelProto) :
  add_control_token proto_ "<pad>" = Build_proto "<pad>" (pieces proto_ ++ [pad_control]).
Proof. done. Qed.

Lemma add_control_token_legacy_pad (proto_ : ModelProto) :
  add_control_token proto_ "<pad>@0" = Build_proto "<pad>" (pad_control :: pieces proto_).
Proof.
  unfold add_control_token. cbn -[move_last_to_front].
  by rewrite move_last_to_front_snoc.
Qed.

Lemma add_control_token_other (proto_ : ModelProto) (token : string) :
  token <> EmptyString -> ~ is_pad_marker token ->
  add_control_token proto_ token
  = Build_proto (pad_piece proto_) (pieces proto_ ++ [Build_piece token 0 CONTROL]).
Proof.
  intros Hne Hpad. unfold add_control_token, is_pad_marker in *.
  by rewrite !decide_False by done.
Qed.

(** The three cases of a token. *)
Lemma token_cases (token : string) :
  token = EmptyString \/ token = "<pad>" \/ token = "<pad>@0" \/
  (token <> EmptyString /\ ~ is_pad_marker token).
Proof.
  unfold is_pad_marker.
  destruct (decide (token = EmptyString)); [by left|].
  destruct (decide (token = "<pad>")); [by right; left|].
  destruct (decide (token = "<pad>@0")); [by right; right; left|].
  right; right; right. split; [done|]. by intros [?|?].
Qed.

(** Tokens other than the legacy padding marker only append: each token
    that is not empty adds the control piece of that surface at the end. *)
Lemma add_control_tokens_append (tokens : list string) (proto_ : ModelProto) :
  "<pad>@0" ∉ tokens ->
  pieces (foldl add_control_token proto_ tokens)
  = pieces proto_
    ++ ((fun token => Build_piece token 0 CONTROL)
          <$> filter (fun token => token <> EmptyString) tokens).
Proof.
  revert proto_. induction tokens as [|token tokens IH]; intros proto_ Hno.
  - cbn. by rewrite app_nil_r.
  - apply not_elem_of_cons in Hno as [Hne Hno]. cbn [foldl].
    rewrite IH by done.
    destruct (token_cases token) as [->|[->|[->|[Hn Hp]]]]; [| |done|].
    + by rewrite add_control_token_empty.
    + rewrite add_control_token_pad. cbn [pieces].
      rewrite filter_cons_True by done. cbn [fmap list_fmap].
      by rewrite <- (assoc_L (++)).
    + rewrite add_control_token_other by done. cbn [pieces].
      rewrite filter_cons_True by done. cbn [fmap list_fmap].
      by rewrite <- (assoc_L (++)).
Qed.

(** After a legacy padding marker that no further one follows, the pad
    piece heads the list, then come the pieces there were before it, then
    the pieces of the tokens after it. *)
Lemma add_control_tokens_last_legacy (pre post : list string) (proto_ : ModelProto) :
  "<pad>@0" ∉ post ->
  pieces (add_control_tokens (Build_options (pre ++ "<pad>@0" :: post)) proto_)
  = pad_control :: pieces (add_control_tokens (Build_options pre) proto_)
    ++ ((fun token => Build_piece token 0 CONTROL)
          <$> filter (fun token => token <> EmptyString) post).
Proof.
  intros Hno. unfold add_control_tokens. cbn [control_tokens].
  rewrite foldl_app. cbn [foldl].
  rewrite add_control_tokens_append by done.
  by rewrite add_control_token_legacy_pad.
Qed.

(** Every step sets [pad_piece] to the plain literal or leaves it. *)
Lemma add_control_token_pad_piece (proto_ : ModelProto) (token : string) :
  pad_piece (add_control_token proto_ token)
  = if decide (is_pad_marker token) then "<pad>" else pad_piece proto_.
Proof.
  destruct (token_cases token) as [->|[->|[->|[Hn Hp]]]]; try done.
  rewrite add_control_token_other by done. by rewrite decide_False.
Qed.

(** The number of pieces equal to [pad_control] grows by one at a padding
    marker and stays at any other token. *)
Lemma add_control_token_count (proto_ : ModelProto) (token : string) :
  length (filter (fun sp => sp = pad_control) (pieces (add_control_token proto_ token)))
  = (length (filter (fun sp => sp = pad_control) (pieces proto_))
     + if decide (is_pad_marker token) then 1 else 0)%nat.
Proof.
  destruct (token_cases token) as [->|[->|[->|[Hn Hp]]]].
  - rewrite add_control_token_empty, decide_False by (by intros [?|?]). lia.
  - rewrite add_control_token_pad, decide_True by (by left). cbn [pieces].
    by rewrite filter_app, length_app.
  - rewrite add_control_token_legacy_pad, decide_True by (by right). cbn [pieces].
    rewrite filter_cons_True by done. cbn [length]. lia.
  - rewrite add_control_token_other by done. cbn [pieces].
    rewrite filter_app, length_app, decide_False by done.
    rewrite filter_cons_False, filter_nil; [done|].
    unfold pad_control, is_pad_marker in *. intros [= ->]. naive_solver.
Qed.

(** C1.  The legacy padding marker ["<pad>@0"].  Processing it puts the pad
    piece at index 0 and every piece that was in the list at the index one
    higher, in the same order; the list it leaves is the one reached from
    the list with the pad piece appended by swapping the neighbours
    [(j + 1, j)] for [j] from the last but one index down to 0.  For a
    whole configuration that contains the marker: the pad piece is at index
    0 of the final list, and after the last such marker the pieces that
    were in the list before it follow in their order, each one index up.
    With three pieces and the configuration [["<pad>@0"]] the list is the
    pad piece followed by the three pieces. *)
Theorem legacy_pad_moves_to_front :
  (forall proto_ : ModelProto,
     pieces (add_control_token proto_ "<pad>@0") = pad_control :: pieces proto_ /\
     pieces (add_control_token proto_ "<pad>@0")
     = foldl (fun l j => SwapElements (S j) j l) (pieces proto_ ++ [pad_control])
         (reverse (seq 0 (length (pieces proto_)))) /\
     pieces (add_control_token proto_ "<pad>@0") !! 0%nat = Some pad_control /\
     (forall (i : nat) (sp : ModelProto_SentencePiece),
        pieces proto_ !! i = Some sp ->
        pieces (add_control_token proto_ "<pad>@0") !! S i = Some sp)) /\
  (forall (opts : sp_model_options) (proto_ : ModelProto),
     "<pad>@0" ∈ control_tokens opts ->
     pieces (add_control_tokens opts proto_) !! 0%nat = Some pad_control /\
     exists pre post : list string,
       control_tokens opts = pre ++ "<pad>@0" :: post /\
       ("<pad>@0" ∉ post) /\
       forall (i : nat) (sp : ModelProto_SentencePiece),
         pieces (add_control_tokens (Build_options pre) proto_) !! i = Some sp ->
         pieces (add_control_tokens opts proto_) !! S i = Some sp) /\
  (forall (pp : string) (a b c : ModelProto_SentencePiece),
     pieces (add_control_tokens (Build_options ["<pad>@0"]) (Build_proto pp [a; b; c]))
     = [pad_control; a; b; c]).
Proof.
  split; [|split].
  - intros proto_. rewrite add_control_token_legacy_pad. cbn [pieces].
    repeat split; [|done].
    rewrite <- swap_down_foldl.
    change (pieces proto_ ++ [pad_control]) with (pieces proto_ ++ pad_control :: []).
    by rewrite swap_down_front, app_nil_r.
  - intros [tokens] proto_ Hin. cbn [control_tokens] in *.
    apply list_elem_of_split_r in Hin as (pre & post & -> & Hno).
    rewrite add_control_tokens_last_legacy by done.
    split; [done|]. exists pre, post. repeat split; [done|].
    intros i sp Hi. cbn [lookup list_lookup]. by apply lookup_app_l_Some.
  - intros pp a b c. unfold add_control_tokens. cbn [control_tokens foldl].
    by rewrite add_control_token_legacy_pad.
Qed.

Lemma legacy_pad_moves_to_front_witness :
  pieces (add_control_tokens (Build_options ["<s>"; "<pad>@0"; "</s>"])
            (Build_proto EmptyString three_pieces)) !! 0%nat
  = Some pad_control.
Proof.
  apply (proj1 (proj2 legacy_pad_moves_to_front)). cbn [control_tokens].
  apply elem_of_cons. right. apply elem_of_cons. left. reflexivity.
Defined.

(** C3, as the code has it.  For a token that is a padding marker, plain or
    legacy, the pad piece metadata is set to the plain literal ["<pad>"],
    whichever of the two spellings the token is, and a control piece of
    surface ["<pad>"] is appended at the end of the piece list; for the
    legacy spelling the relocation loop then runs on that list. *)
Theorem pad_marker_sets_plain_literal (proto_ : ModelProto) (token : string) :
  token = "<pad>" \/ token = "<pad>@0" ->
  pad_piece (add_control_token proto_ token) = "<pad>" /\
  add_piece (set_pad_piece proto_ "<pad>") "<pad>"
  = Build_proto "<pad>" (pieces proto_ ++ [Build_piece "<pad>" 0 CONTROL]) /\
  pieces (add_control_token proto_ token)
  = if decide (token = "<pad>@0")
    then move_last_to_front (pieces proto_ ++ [Build_piece "<pad>" 0 CONTROL])
    else pieces proto_ ++ [Build_piece "<pad>" 0 CONTROL].
Proof. by intros [-> | ->]. Qed.

Lemma pad_marker_sets_plain_literal_witness :
  pad_piece (add_control_token (Build_proto "<blank>" three_pieces) "<pad>@0") = "<pad>" /\
  add_piece (set_pad_piece (Build_proto "<blank>" three_pieces) "<pad>") "<pad>"
  = Build_proto "<pad>" (three_pieces ++ [Build_piece "<pad>" 0 CONTROL]) /\
  pieces (add_control_token (Build_proto "<blank>" three_pieces) "<pad>@0")
  = if decide ("<pad>@0" = "<pad>@0")
    then move_last_to_front (three_pieces ++ [Build_piece "<pad>" 0 CONTROL])
    else three_pieces ++ [Build_piece "<pad>" 0 CONTROL].
Proof.
  apply (pad_marker_sets_plain_literal (Build_proto "<blank>" three_pieces) "<pad>@0").
  right. reflexivity.
Defined.

(** C3, as it is worded, fails at the legacy marker: on the empty model and
    the token ["<pad>@0"] the metadata the loader sets is ["<pad>"], not the
    token, and the one piece it adds has the surface ["<pad>"], not the
    token. *)
Lemma pad_marker_literal_counterexample :
  pad_piece (add_control_token (Build_proto EmptyString []) "<pad>@0") = "<pad>" /\
  pad_piece (add_control_token (Build_proto EmptyString []) "<pad>@0") <> "<pad>@0" /\
  pieces (add_control_token (Build_proto EmptyString []) "<pad>@0")
  = [Build_piece "<pad>" 0 CONTROL] /\
  Build_piece "<pad>@0" 0 CONTROL
  ∉ pieces (add_control_token (Build_proto EmptyString []) "<pad>@0").
Proof.
  rewrite add_control_token_legacy_pad. cbn [pad_piece pieces].
  repeat split; [done|]. by intros [[=]|[]%elem_of_nil]%elem_of_cons.
Qed.

(** C10.  Padding markers are not deduplicated.  Over a whole
    configuration the number of ["<pad>"] control pieces grows by the number
    of padding markers in it, whatever the model held; each marker sets
    [pad_piece] again and adds its piece even when the model holds one
    already; and a configuration with the marker twice gives two pieces. *)
Theorem pad_markers_accumulate :
  (forall (opts : sp_model_options) (proto_ : ModelProto),
     length (filter (fun sp => sp = pad_control)
               (pieces (add_control_tokens opts proto_)))
     = (length (filter (fun sp => sp = pad_control) (pieces proto_))
        + length (filter is_pad_marker (control_tokens opts)))%nat) /\
  (forall proto_ : ModelProto,
     add_control_token proto_ "<pad>"
     = Build_proto "<pad>" (pieces proto_ ++ [pad_control]) /\
     add_control_token proto_ "<pad>@0"
     = Build_proto "<pad>" (pad_control :: pieces proto_)) /\
  (forall pp : string,
     pieces (add_control_tokens (Build_options ["<pad>"; "<pad>"]) (Build_proto pp []))
     = [pad_control; pad_control] /\
     pieces (add_control_tokens (Build_options ["<pad>@0"; "<pad>@0"]) (Build_proto pp []))
     = [pad_control; pad_control] /\
     pieces (add_control_tokens (Build_options ["<pad>"]) (Build_proto pp [pad_control]))
     = [pad_control; pad_control]).
Proof.
  split; [|split].
  - intros [tokens] proto_. unfold add_control_tokens. cbn [control_tokens].
    revert proto_. induction tokens as [|token tokens IH]; intros proto_.
    + cbn. lia.
    + cbn [foldl]. rewrite IH, add_control_token_count.
      destruct (decide (is_pad_marker token)).
      * rewrite filter_cons_True by done. cbn [length]. lia.
      * rewrite filter_cons_False by done. lia.
  - intros proto_. by rewrite add_control_token_pad, add_control_token_legacy_pad.
  - intros pp. unfold add_control_tokens. cbn [control_tokens foldl].
    by rewrite !add_control_token_legacy_pad, !add_control_token_pad.
Qed.

End LoaderProperties.

(** * Part V: properties of the processor *)

Section ProcessorProperties.
Import SP.

(** ** Casts *)

Lemma static_cast_exact (T : ctype) (z : Z) :
  representable T z -> static_cast T z = z.
Proof.
  destruct T; unfold representable, static_cast; intros Hz;
    rewrite Z.mod_small by lia; lia.
Qed.

(** A [std::int32_t] seen as a [std::size_t]: a negative value lands in the
    upper half of the range. *)
Lemma static_cast_size_t_int32 (idx : Z) :
  representable int32_t idx ->
  static_cast size_t idx = if decide (0 <= idx) then idx else idx + 2 ^ 64.
Proof.
  unfold representable, static_cast. intros Hidx. case_decide.
  - apply Z.mod_small. lia.
  - symmetry. apply (Z.mod_unique_pos _ _ (-1)); lia.
Qed.

Context `{E : Externals}.

(** ** What the constructor returns *)

Lemma load_proto_cases (pathname_ : string) :
  load_proto pathname_
  = match code (LoadModelProto pathname_).1 with
    | kOk => inr (LoadModelProto pathname_).2
    | kNotFound => inl (system_error no_such_file_or_directory)
    | kPermissionDenied => inl (system_error permission_denied)
    | _ => inl (runtime_error (message (LoadModelProto pathname_).1))
    end.
Proof.
  unfold load_proto, ok. destruct (LoadModelProto pathname_) as [[c msg] proto_].
  cbn [fst snd code message]. by destruct c.
Qed.

Lemma load_processor_cases (proto_ : ModelProto) :
  load_processor proto_
  = if decide (code (processor_Load proto_).1 = kOk)
    then inr (processor_Load proto_).2
    else inl (runtime_error (message (processor_Load proto_).1)).
Proof.
  unfold load_processor, ok. destruct (processor_Load proto_) as [[c msg] e].
  cbn [fst snd code message]. by destruct c.
Qed.

(** A failed [load] leaves the constructor with the same exception. *)
Lemma make_sp_processor_load_failed (path : string) (opts : sp_model_options)
    (x : exception) :
  load path opts = inl x -> make_sp_processor path opts = inl x.
Proof. intros Hl. unfold make_sp_processor. by rewrite Hl. Qed.

(** After a [load] that returned an engine, only the pad id decides. *)
Lemma make_sp_processor_loaded (path : string) (opts : sp_model_options)
    (e : SentencePieceProcessor) :
  load path opts = inr e ->
  make_sp_processor path opts
  = if decide (conditional_cast int32_t (pad_id e) < 0)
    then inl (runtime_error no_pad_message)
    else inr (Build_processor e
                (conditional_cast int32_t (unk_id e))
                (conditional_cast int32_t (bos_id e))
                (conditional_cast int32_t (eos_id e))
                (conditional_cast int32_t (pad_id e))
                (conditional_cast size_t (GetPieceSize e))).
Proof. intros Hl. unfold make_sp_processor. by rewrite Hl. Qed.

(** The members of a processor the constructor returned. *)
Lemma make_sp_processor_inv (path : string) (opts : sp_model_options)
    (p : sp_processor) :
  cast_exact -> make_sp_processor path opts = inr p -> engine_ok (native_ p) ->
  load path opts = inr (native_ p) /\
  unk_idx p = unk_id (native_ p) /\
  bos_idx p = bos_id (native_ p) /\
  eos_idx p = eos_id (native_ p) /\
  pad_idx p = pad_id (native_ p) /\
  vocab_size p = GetPieceSize (native_ p) /\
  0 <= pad_idx p < vocab_size p.
Proof.
  intros Hcast Hp Hok.
  destruct (load path opts) as [x|e] eqn:Hl.
  { by rewrite (make_sp_processor_load_failed _ _ _ Hl) in Hp. }
  rewrite (make_sp_processor_loaded _ _ _ Hl) in Hp.
  case_decide as Hpad; [done|]. injection Hp as <-. cbn [native_] in *.
  destruct Hok as [Hsize Hunk Hbos Heos Hpadi Hlt].
  cbn [unk_idx bos_idx eos_idx pad_idx vocab_size].
  rewrite !(Hcast int32_t) in * by done.
  rewrite (Hcast size_t) by (unfold representable in *; lia).
  repeat split; lia.
Qed.

(** ** Loading *)

(** C4.  [load_proto] throws the [std::system_error] of
    [no_such_file_or_directory] (NotFound) exactly when the status of the
    library is [kNotFound], the one of [permission_denied]
    (PermissionDenied) exactly when it is [kPermissionDenied], and a
    [std::runtime_error] with the message of the status (ParseError) exactly
    when it is any other code but [kOk]; it returns exactly when the status
    is ok.  [load_processor] throws a [std::runtime_error] with the message
    of the status exactly when compiling did not return ok.  An exception of
    either step is the exception of [load] and of the constructor of
    [sp_processor]: nothing catches it and nothing is called again. *)
Theorem load_failures_are_raised (path : string) (opts : sp_model_options) :
  (load_proto path = inl (system_error no_such_file_or_directory)
   <-> code (LoadModelProto path).1 = kNotFound) /\
  (load_proto path = inl (system_error permission_denied)
   <-> code (LoadModelProto path).1 = kPermissionDenied) /\
  (load_proto path = inl (runtime_error (message (LoadModelProto path).1))
   <-> code (LoadModelProto path).1 <> kOk /\
       code (LoadModelProto path).1 <> kNotFound /\
       code (LoadModelProto path).1 <> kPermissionDenied) /\
  (load_proto path = inr (LoadModelProto path).2
   <-> code (LoadModelProto path).1 = kOk) /\
  (forall proto_ : ModelProto,
     (load_processor proto_ = inl (runtime_error (message (processor_Load proto_).1))
      <-> code (processor_Load proto_).1 <> kOk) /\
     (load_processor proto_ = inr (processor_Load proto_).2
      <-> code (processor_Load proto_).1 = kOk)) /\
  (forall x : exception,
     load_proto path = inl x ->
     load path opts = inl x /\ make_sp_processor path opts = inl x) /\
  (forall (proto_ : ModelProto) (x : exception),
     load_proto path = inr proto_ ->
     load_processor (add_control_tokens opts proto_) = inl x ->
     load path opts = inl x /\ make_sp_processor path opts = inl x).
Proof.
  rewrite load_proto_cases.
  split; [|split; [|split; [|split; [|split; [|split]]]]].
  - destruct (code _); split; intros Hx; first [done | discriminate].
  - destruct (code _); split; intros Hx; first [done | discriminate].
  - destruct (code _); split; intros Hx;
      first [done | discriminate | by destruct Hx as (? & ? & ?)].
  - destruct (code _); split; intros Hx; first [done | discriminate].
  - intros proto_. rewrite load_processor_cases.
    case_decide as Hc; repeat split; intros Hx; first [done | discriminate].
  - intros x Hx. rewrite <- load_proto_cases in Hx.
    assert (load path opts = inl x) as Hl by (unfold load; by rewrite Hx).
    split; [done|]. by apply make_sp_processor_load_failed.
  - intros proto_ x Hx Hc. rewrite <- load_proto_cases in Hx.
    assert (load path opts = inl x) as Hl by (unfold load; by rewrite Hx).
    split; [done|]. by apply make_sp_processor_load_failed.
Qed.

(** ** Construction *)

(** Tokens that are neither padding markers nor the designated pad piece
    of the model leave [pad_piece] and add no control piece of that
    surface. *)
Lemma add_control_tokens_no_pad_piece (P : string) (tokens : list string)
    (proto_ : ModelProto) :
  Forall (fun token => ~ is_pad_marker token /\ token <> P) tokens ->
  pad_piece proto_ = P ->
  (forall sp, sp ∈ pieces proto_ -> piece sp = P -> type sp <> CONTROL) ->
  pad_piece (foldl add_control_token proto_ tokens) = P /\
  (forall sp, sp ∈ pieces (foldl add_control_token proto_ tokens) ->
     piece sp = P -> type sp <> CONTROL).
Proof.
  intros Hno. revert proto_.
  induction Hno as [|token tokens [Hm Hne] _ IH]; intros proto_ Hpad Hnone; [done|].
  cbn [foldl]. apply IH.
  - rewrite add_control_token_pad_piece. by rewrite decide_False.
  - destruct (decide (token = EmptyString)) as [->|Hnem]; [done|].
    rewrite add_control_token_other by done. cbn [pieces].
    intros sp [Hin|Hin]%elem_of_app Hsp; [by apply Hnone|].
    apply list_elem_of_singleton in Hin as ->. by cbn in Hsp.
Qed.


(** ** Lookups *)

(** [piece_index] finds the first piece of the surface, if there is one. *)
Lemma piece_index_Some (token : string) (l : list ModelProto_SentencePiece) (i : nat) :
  piece_index token l = Some i ->
  exists sp, l !! i = Some sp /\ piece sp = token.
Proof.
  revert i. induction l as [|sp l IH]; intros i Hi; [done|].
  cbn [piece_index] in Hi. case_decide as Hsp.
  - injection Hi as <-. by exists sp.
  - destruct (piece_index token l) as [j|]; [|done].
    injection Hi as <-. by apply IH.
Qed.

Lemma piece_index_None (token : string) (l : list ModelProto_SentencePiece) :
  piece_index token l = None ->
  forall sp, sp ∈ l -> piece sp <> token.
Proof.
  induction l as [|sp0 l IH]; intros Hi sp Hin; [by apply elem_of_nil in Hin|].
  cbn [piece_index] in Hi. case_decide as Hsp; [done|].
  destruct (piece_index token l) as [j|]; [done|].
  apply elem_of_cons in Hin as [->|Hin]; [done|]. by apply IH.
Qed.

(** C5.  For a processor the constructor returned and an index [idx] (a
    [std::int32_t]): [index_to_token] throws the [std::domain_error] "The
    specified index is out of range." (RangeError) exactly when [idx] is
    outside [0, vocab_size), and otherwise returns the surface of the piece
    at [idx].  So the index [vocab_size] throws, and the index
    [vocab_size - 1] returns the surface of the last piece. *)
Theorem index_to_token_range (path : string) (opts : sp_model_options)
    (p : sp_processor) :
  cast_exact -> make_sp_processor path opts = inr p -> engine_ok (native_ p) ->
  (forall idx : Z,
     representable int32_t idx ->
     (index_to_token p idx = inl (domain_error out_of_range_message)
      <-> ~ (0 <= idx < vocab_size p)) /\
     (0 <= idx < vocab_size p ->
      exists sp : ModelProto_SentencePiece,
        engine_pieces (native_ p) !! Z.to_nat idx = Some sp /\
        index_to_token p idx = inr (piece sp))) /\
  index_to_token p (vocab_size p) = inl (domain_error out_of_range_message) /\
  (exists sp : ModelProto_SentencePiece,
     engine_pieces (native_ p) !! Z.to_nat (vocab_size p - 1) = Some sp /\
     index_to_token p (vocab_size p - 1) = inr (piece sp)).
Proof.
  intros Hcast Hp Hok.
  destruct (make_sp_processor_inv _ _ _ Hcast Hp Hok)
    as (_ & _ & _ & _ & _ & Hvs & Hpad).
  pose proof (piece_size_int _ Hok) as Hsize. rewrite <- Hvs in Hsize.
  assert (forall idx : Z,
            representable int32_t idx ->
            (index_to_token p idx = inl (domain_error out_of_range_message)
             <-> ~ (0 <= idx < vocab_size p)) /\
            (0 <= idx < vocab_size p ->
             exists sp : ModelProto_SentencePiece,
               engine_pieces (native_ p) !! Z.to_nat idx = Some sp /\
               index_to_token p idx = inr (piece sp))) as Hall.
  { intros idx Hidx. unfold index_to_token.
    rewrite (static_cast_size_t_int32 _ Hidx), (Hcast int_t) by done.
    unfold representable in *.
    repeat case_decide; (split; [split; intros Hx; first [lia | done | discriminate]|]);
      intros Hin; try lia.
    destruct (lookup_lt_is_Some_2 (engine_pieces (native_ p)) (Z.to_nat idx))
      as [sp Hsp]; [unfold GetPieceSize in Hvs; lia|].
    exists sp. split; [done|]. unfold IdToPiece. by rewrite Hsp. }
  split; [done|]. split.
  - apply Hall; unfold representable in *; lia.
  - apply Hall; unfold representable in *; lia.
Qed.

(** C9.  [token_to_index] returns on every token: for a token that is the
    surface of a piece it returns an id of the vocabulary whose piece has
    that surface, and for a token that is the surface of no piece it returns
    the unknown id the processor holds. *)
Theorem token_to_index_total (path : string) (opts : sp_model_options)
    (p : sp_processor) (token : string) :
  cast_exact -> make_sp_processor path opts = inr p -> engine_ok (native_ p) ->
  exists id : Z,
    token_to_index p token = inr id /\
    ((exists sp, sp ∈ engine_pieces (native_ p) /\ piece sp = token) ->
     0 <= id < vocab_size p /\
     exists sp, engine_pieces (native_ p) !! Z.to_nat id = Some sp /\ piece sp = token) /\
    ((forall sp, sp ∈ engine_pieces (native_ p) -> piece sp <> token) ->
     id = unk_idx p).
Proof.
  intros Hcast Hp Hok.
  destruct (make_sp_processor_inv _ _ _ Hcast Hp Hok)
    as (_ & Hunk & _ & _ & _ & Hvs & _).
  pose proof (piece_size_int _ Hok) as Hsize.
  pose proof (unk_id_int _ Hok) as Hunki.
  unfold token_to_index, PieceToId. unfold GetPieceSize in *.
  destruct (piece_index token (engine_pieces (native_ p))) as [i|] eqn:Hi.
  - apply piece_index_Some in Hi as (sp & Hsp & Htok).
    pose proof (lookup_lt_Some _ _ _ Hsp) as Hlt.
    exists (Z.of_nat i). rewrite (Hcast int32_t) by (unfold representable in *; lia).
    split; [done|]. split.
    + intros _. split; [lia|]. exists sp. by rewrite Nat2Z.id.
    + intros Hnone. destruct (Hnone sp); [|done]. by eapply list_elem_of_lookup_2.
  - exists (unk_id (native_ p)). rewrite (Hcast int32_t) by done.
    split; [done|]. split; [|done].
    intros (sp & Hin & Htok). by destruct (piece_index_None _ _ Hi sp).
Qed.

End ProcessorProperties.

(** * Part VI: the properties on concrete models *)

Section ProcessorWitnesses.
Import SP.

Lemma demo_cast_exact : @cast_exact demo_externals.
Proof. intros T z. apply static_cast_exact. Qed.

Lemma demo_engine_ok : engine_ok demo_engine.
Proof. split; unfold representable, GetPieceSize; cbn; lia. Qed.

Lemma load_failures_are_raised_witness :
  make_sp_processor (E := absent_externals) "missing.model" (Build_options [])
  = inl (system_error no_such_file_or_directory).
Proof.
  destruct (load_failures_are_raised (E := absent_externals) "missing.model"
              (Build_options [])) as (Hnf & _ & _ & _ & _ & Hraise & _).
  apply Hraise. apply Hnf. reflexivity.
Defined.


(** The toy compiler reports a pad id only for a control piece that
    [pad_piece] names, whatever the model. *)
Lemma pad_id_of_names_pad_piece (m : ModelProto) (u b e : Z) :
  pad_id_names_pad_piece m (Build_engine (pieces m) u b e (pad_id_of m)).
Proof.
  unfold pad_id_names_pad_piece, pad_id_of. cbn [pad_id].
  destruct (piece_index (pad_piece m) (pieces m)) as [i|] eqn:Hi; [|lia].
  apply piece_index_Some in Hi as (sp & Hsp & Hsurf). rewrite Hsp.
  destruct sp as [s sc []]; try lia.
  intros _. rewrite Nat2Z.id. by exists (Build_piece s sc CONTROL).
Qed.


Lemma index_to_token_range_witness :
  index_to_token (E := demo_externals) demo_processor 4
  = inl (domain_error out_of_range_message) /\
  (exists sp : ModelProto_SentencePiece,
     engine_pieces demo_engine !! Z.to_nat (4 - 1) = Some sp /\
     index_to_token (E := demo_externals) demo_processor (4 - 1) = inr (piece sp)).
Proof.
  refine (proj2 (index_to_token_range (E := demo_externals) "nllb.model"
            demo_options demo_processor demo_cast_exact _ demo_engine_ok)).
  reflexivity.
Defined.

Lemma token_to_index_total_witness :
  exists id : Z,
    token_to_index (E := demo_externals) demo_processor "zzz" = inr id /\
    id = unk_idx demo_processor.
Proof.
  destruct (token_to_index_total (E := demo_externals) "nllb.model" demo_options
              demo_processor "zzz" demo_cast_exact eq_refl demo_engine_ok)
    as (id & Hid & _ & Hunk).
  exists id. split; [exact Hid|]. apply Hunk.
  intros sp Hin. cbn in Hin.
  repeat (apply elem_of_cons in Hin as [->|Hin]; [discriminate|]).
  by apply elem_of_nil in Hin.
Defined.

End ProcessorWitnesses.

(** * Part VII: further properties of the model loader *)

Section LoaderExtras.
Import SP.

(** ** The relocation loop on any list *)

(** A swap of two neighbours, wherever it is asked for, permutes. *)
Lemma SwapElements_adjacent_perm {A : Type} (j : nat) (l : list A) :
  SwapElements (S j) j l ≡ₚ l.
Proof.
  destruct (l !! S j) as [x|] eqn:Hx; [|unfold SwapElements; by rewrite Hx].
  destruct (l !! j) as [y|] eqn:Hy; [|unfold SwapElements; by rewrite Hx, Hy].
  apply list_elem_of_split_length in Hy as (pre & rest & -> & ->).
  rewrite lookup_app_r in Hx by lia.
  replace (S (length pre) - length pre)%nat with 1%nat in Hx by lia.
  destruct rest as [|x' post]; [done|]. injection Hx as ->.
  rewrite SwapElements_adjacent. apply Permutation_app_head, perm_swap.
Qed.

Lemma swap_down_perm {A : Type} (i : nat) (l : list A) : swap_down i l ≡ₚ l.
Proof.
  revert l. induction i as [|i IH]; intros l; [done|].
  cbn [swap_down]. by rewrite IH, SwapElements_adjacent_perm.
Qed.

(** X1.  The relocation loop on any list, empty or not: it rotates the list
    by one place, the last element first and the others behind it in their
    order.  So it keeps the length, loses and repeats nothing, and leaves a
    list of no or one element as it is. *)
Theorem move_last_to_front_rotates {A : Type} (l : list A) :
  move_last_to_front l = drop (length l - 1) l ++ take (length l - 1) l /\
  move_last_to_front l ≡ₚ l /\
  length (move_last_to_front l) = length l /\
  ((length l <= 1)%nat -> move_last_to_front l = l).
Proof.
  assert (move_last_to_front l ≡ₚ l) as Hperm by apply swap_down_perm.
  split; [|split; [done|split; [by rewrite Hperm|]]].
  - clear Hperm. induction l as [|a l0 _] using rev_ind; [done|].
    rewrite move_last_to_front_snoc, length_app. cbn [length].
    replace (length l0 + 1 - 1)%nat with (length l0) by lia.
    by rewrite drop_app_length, take_app_length.
  - intros Hlen. destruct l as [|a [|b l]]; cbn in Hlen; [done|done|lia].
Qed.

Lemma move_last_to_front_rotates_witness :
  move_last_to_front [7%nat] = [7%nat].
Proof.
  refine (proj2 (proj2 (proj2 (move_last_to_front_rotates [7%nat]))) _).
  cbn. lia.
Defined.

(** ** The whole loop in closed form *)

(** The final [pad_piece]: the plain literal as soon as one token is a
    padding marker. *)
Lemma add_control_tokens_pad_piece (tokens : list string) (proto_ : ModelProto) :
  pad_piece (foldl add_control_token proto_ tokens)
  = if decide (Exists is_pad_marker tokens) then "<pad>" else pad_piece proto_.
Proof.
  induction tokens as [|token tokens IH] using rev_ind.
  - cbn [foldl]. rewrite decide_False; [done|]. by intros ?%Exists_nil.
  - rewrite foldl_snoc, add_control_token_pad_piece, IH.
    destruct (decide (is_pad_marker token)) as [Hm|Hm].
    + rewrite (decide_True (P := Exists _ (_ ++ _))); [done|].
      apply Exists_app. right. by constructor.
    + destruct (decide (Exists is_pad_marker tokens)) as [He|He].
      * rewrite decide_True; [done|]. apply Exists_app. by left.
      * rewrite decide_False; [done|].
        intros [?|[?|[]%Exists_nil]%Exists_cons]%Exists_app; done.
Qed.

(** X2.  [add_control_tokens] in closed form.  With [n] the number of
    legacy markers ["<pad>@0"] in the configuration, the final list is [n]
    pad pieces, then the pieces of the model in their order, then one
    control piece for each other token that is not empty, in the order of
    the configuration; every piece of the model has moved up by exactly [n]
    places; and [pad_piece] is ["<pad>"] if some token is a padding marker
    and is untouched otherwise. *)
Theorem add_control_tokens_closed_form (opts : sp_model_options) (proto_ : ModelProto) :
  pieces (add_control_tokens opts proto_)
  = replicate (length (filter (fun token => token = "<pad>@0") (control_tokens opts)))
      pad_control
    ++ pieces proto_
    ++ ((fun token => Build_piece token 0 CONTROL)
          <$> filter (fun token => token <> EmptyString /\ token <> "<pad>@0")
                (control_tokens opts)) /\
  (forall (i : nat) (sp : ModelProto_SentencePiece),
     pieces proto_ !! i = Some sp ->
     pieces (add_control_tokens opts proto_)
       !! (length (filter (fun token => token = "<pad>@0") (control_tokens opts)) + i)%nat
     = Some sp) /\
  pad_piece (add_control_tokens opts proto_)
  = if decide (Exists is_pad_marker (control_tokens opts)) then "<pad>"
    else pad_piece proto_.
Proof.
  destruct opts as [tokens]. unfold add_control_tokens. cbn [control_tokens].
  assert (pieces (foldl add_control_token proto_ tokens)
          = replicate (length (filter (fun token => token = "<pad>@0") tokens)) pad_control
            ++ pieces proto_
            ++ ((fun token => Build_piece token 0 CONTROL)
                  <$> filter (fun token => token <> EmptyString /\ token <> "<pad>@0")
                        tokens)) as Hclosed.
  { induction tokens as [|token tokens IH] using rev_ind.
    - cbn. by rewrite app_nil_r.
    - rewrite foldl_snoc, !filter_app, length_app, fmap_app.
      destruct (token_cases token) as [->|[->|[->|[Hn Hp]]]].
      + rewrite add_control_token_empty, IH.
        rewrite (filter_cons_False (fun token => token = "<pad>@0")) by done.
        rewrite (filter_cons_False (fun token => _ /\ _)) by (by intros [? _]).
        rewrite !filter_nil. cbn [length fmap list_fmap].
        by rewrite Nat.add_0_r, app_nil_r.
      + rewrite add_control_token_pad. cbn [pieces]. rewrite IH.
        rewrite (filter_cons_False (fun token => token = "<pad>@0")) by done.
        rewrite (filter_cons_True (fun token => _ /\ _)) by done.
        rewrite !filter_nil. cbn [length fmap list_fmap].
        by rewrite Nat.add_0_r, <- !(assoc_L (++)).
      + rewrite add_control_token_legacy_pad. cbn [pieces]. rewrite IH.
        rewrite (filter_cons_True (fun token => token = "<pad>@0")) by done.
        rewrite (filter_cons_False (fun token => _ /\ _)) by (by intros [_ ?]).
        rewrite !filter_nil. cbn [length fmap list_fmap].
        by rewrite Nat.add_1_r, app_nil_r.
      + rewrite add_control_token_other by done. cbn [pieces]. rewrite IH.
        rewrite (filter_cons_False (fun token => token = "<pad>@0")).
        2:{ intros ->. apply Hp. by right. }
        rewrite (filter_cons_True (fun token => _ /\ _)).
        2:{ split; [done|]. intros ->. apply Hp. by right. }
        rewrite !filter_nil. cbn [length fmap list_fmap].
        by rewrite Nat.add_0_r, <- !(assoc_L (++)). }
  split; [done|]. split; [|apply add_control_tokens_pad_piece].
  intros i sp Hi. rewrite Hclosed.
  rewrite lookup_app_r by (rewrite length_replicate; lia).
  rewrite length_replicate.
  replace (length (filter (fun token => token = "<pad>@0") tokens) + i
           - length (filter (fun token => token = "<pad>@0") tokens))%nat
    with i by lia.
  by apply lookup_app_l_Some.
Qed.

Lemma add_control_tokens_closed_form_witness :
  pieces (add_control_tokens (Build_options ["<pad>@0"; "<s>"; "<pad>@0"])
            (Build_proto EmptyString three_pieces)) !! (2 + 1)%nat
  = Some (Build_piece "a" (-1) NORMAL).
Proof.
  refine (proj1 (proj2 (add_control_tokens_closed_form
            (Build_options ["<pad>@0"; "<s>"; "<pad>@0"])
            (Build_proto EmptyString three_pieces))) 1%nat _ _).
  reflexivity.
Defined.

(** X3.  Empty tokens are skipped: taking them out of the configuration
    changes nothing of the patched model, and the piece list grows by
    exactly the number of tokens that are not empty. *)
Theorem add_control_tokens_skips_empty (opts : sp_model_options) (proto_ : ModelProto) :
  add_control_tokens
    (Build_options (filter (fun token => token <> EmptyString) (control_tokens opts)))
    proto_
  = add_control_tokens opts proto_ /\
  length (pieces (add_control_tokens opts proto_))
  = (length (pieces proto_)
     + length (filter (fun token => token <> EmptyString) (control_tokens opts)))%nat.
Proof.
  destruct opts as [tokens]. unfold add_control_tokens. cbn [control_tokens].
  revert proto_. induction tokens as [|token tokens IH]; intros proto_.
  - cbn. split; [done|lia].
  - cbn [foldl]. destruct (IH (add_control_token proto_ token)) as [IH1 IH2].
    rewrite IH2, <- IH1.
    destruct (token_cases token) as [->|[->|[->|[Hn Hp]]]].
    + rewrite filter_cons_False by (by intros ?). by rewrite add_control_token_empty.
    + rewrite filter_cons_True by done. cbn [foldl length].
      rewrite add_control_token_pad. cbn [pieces]. rewrite length_app. cbn [length].
      split; [done|lia].
    + rewrite filter_cons_True by done. cbn [foldl length].
      rewrite add_control_token_legacy_pad. cbn [pieces length]. split; [done|lia].
    + rewrite filter_cons_True by done. cbn [foldl length].
      rewrite add_control_token_other by done. cbn [pieces]. rewrite length_app.
      cbn [length]. split; [done|lia].
Qed.

(** The number of pieces equal to the control piece of an ordinary token
    grows by one when that token is processed and stays otherwise. *)
Lemma add_control_token_count_other (proto_ : ModelProto) (tok token : string) :
  tok <> EmptyString -> ~ is_pad_marker tok ->
  length (filter (fun sp => sp = Build_piece tok 0 CONTROL)
            (pieces (add_control_token proto_ token)))
  = (length (filter (fun sp => sp = Build_piece tok 0 CONTROL) (pieces proto_))
     + if decide (token = tok) then 1 else 0)%nat.
Proof.
  intros Hne Hnm.
  assert (tok <> "<pad>") as Hpad by (intros ->; apply Hnm; by left).
  destruct (token_cases token) as [->|[->|[->|[Hn Hp]]]].
  - rewrite add_control_token_empty, decide_False by done. lia.
  - rewrite add_control_token_pad, decide_False by done. cbn [pieces].
    rewrite filter_app, length_app, filter_cons_False, filter_nil; [done|].
    unfold pad_control. by intros [= <-].
  - rewrite add_control_token_legacy_pad, decide_False. cbn [pieces].
    + rewrite filter_cons_False; [lia|]. unfold pad_control. by intros [= <-].
    + intros <-. apply Hnm. by right.
  - rewrite add_control_token_other by done. cbn [pieces].
    rewrite filter_app, length_app. destruct (decide (token = tok)) as [->|Hneq].
    + by rewrite filter_cons_True, filter_nil.
    + rewrite filter_cons_False, filter_nil; [done|]. by intros [= ->].
Qed.

(** X4.  Ordinary control tokens are not deduplicated either: for a token
    that is neither empty nor a padding marker, the number of control
    pieces of that surface in the patched model is the number the model had
    plus the number of times the token stands in the configuration. *)
Theorem control_tokens_accumulate (opts : sp_model_options) (proto_ : ModelProto)
    (tok : string) :
  tok <> EmptyString -> ~ is_pad_marker tok ->
  length (filter (fun sp => sp = Build_piece tok 0 CONTROL)
            (pieces (add_control_tokens opts proto_)))
  = (length (filter (fun sp => sp = Build_piece tok 0 CONTROL) (pieces proto_))
     + length (filter (fun token => token = tok) (control_tokens opts)))%nat.
Proof.
  intros Hne Hnm. destruct opts as [tokens]. unfold add_control_tokens.
  cbn [control_tokens]. revert proto_.
  induction tokens as [|token tokens IH]; intros proto_.
  - cbn. lia.
  - cbn [foldl]. rewrite IH, add_control_token_count_other by done.
    destruct (decide (token = tok)).
    + rewrite filter_cons_True by done. cbn [length]. lia.
    + rewrite filter_cons_False by done. lia.
Qed.

Lemma control_tokens_accumulate_witness :
  length (filter (fun sp => sp = Build_piece "<s>" 0 CONTROL)
            (pieces (add_control_tokens (Build_options ["<s>"; "<pad>"; "<s>"])
                       (Build_proto EmptyString [Build_piece "<s>" 0 CONTROL]))))
  = (length (filter (fun sp => sp = Build_piece "<s>" 0 CONTROL)
               [Build_piece "<s>" 0 CONTROL])
     + length (filter (fun token => token = "<s>") ["<s>"; "<pad>"; "<s>"]))%nat.
Proof.
  apply (control_tokens_accumulate (Build_options ["<s>"; "<pad>"; "<s>"])
           (Build_proto EmptyString [Build_piece "<s>" 0 CONTROL]) "<s>").
  - discriminate.
  - intros [H | H]; discriminate H.
Defined.

(** A step removes no piece. *)
Lemma add_control_token_keeps (proto_ : ModelProto) (token : string)
    (sp : ModelProto_SentencePiece) :
  sp ∈ pieces proto_ -> sp ∈ pieces (add_control_token proto_ token).
Proof.
  intros Hin. destruct (token_cases token) as [->|[->|[->|[Hn Hp]]]].
  - by rewrite add_control_token_empty.
  - rewrite add_control_token_pad. cbn [pieces]. apply elem_of_app. by left.
  - rewrite add_control_token_legacy_pad. cbn [pieces]. apply elem_of_cons. by right.
  - rewrite add_control_token_other by done. cbn [pieces]. apply elem_of_app. by left.
Qed.

Lemma add_control_tokens_keep (tokens : list string) (proto_ : ModelProto)
    (sp : ModelProto_SentencePiece) :
  sp ∈ pieces proto_ -> sp ∈ pieces (foldl add_control_token proto_ tokens).
Proof.
  revert proto_. induction tokens as [|token tokens IH]; intros proto_ Hin; [done|].
  cbn [foldl]. by apply IH, add_control_token_keeps.
Qed.

(** X12.  What the loader hands to the compiler when the configuration
    holds a padding marker, plain or legacy: [pad_piece] is ["<pad>"] and
    the piece list holds a control piece of that surface, whatever the
    model read held and whatever the other tokens are. *)
Theorem pad_marker_gives_pad_piece (opts : sp_model_options) (proto_ : ModelProto) :
  Exists is_pad_marker (control_tokens opts) ->
  pad_piece (add_control_tokens opts proto_) = "<pad>" /\
  exists i : nat,
    pieces (add_control_tokens opts proto_) !! i
    = Some (Build_piece (pad_piece (add_control_tokens opts proto_)) 0 CONTROL).
Proof.
  destruct opts as [tokens]. unfold add_control_tokens. cbn [control_tokens].
  intros Hex. rewrite add_control_tokens_pad_piece, decide_True by done.
  split; [done|]. apply list_elem_of_lookup_1.
  revert proto_. induction Hex as [token tokens Hm|token tokens _ IH]; intros proto_.
  - cbn [foldl]. apply add_control_tokens_keep.
    destruct Hm as [-> | ->].
    + rewrite add_control_token_pad. cbn [pieces]. apply elem_of_app. right.
      apply elem_of_cons. by left.
    + rewrite add_control_token_legacy_pad. cbn [pieces]. apply elem_of_cons. by left.
  - cbn [foldl]. apply IH.
Qed.

Lemma pad_marker_gives_pad_piece_witness :
  pad_piece (add_control_tokens (Build_options ["<s>"; "<pad>"])
               (Build_proto "<blank>" three_pieces)) = "<pad>" /\
  exists i : nat,
    pieces (add_control_tokens (Build_options ["<s>"; "<pad>"])
              (Build_proto "<blank>" three_pieces)) !! i
    = Some (Build_piece
              (pad_piece (add_control_tokens (Build_options ["<s>"; "<pad>"])
                            (Build_proto "<blank>" three_pieces))) 0 CONTROL).
Proof.
  apply (pad_marker_gives_pad_piece (Build_options ["<s>"; "<pad>"])
           (Build_proto "<blank>" three_pieces)).
  cbn [control_tokens]. apply Exists_cons. right. apply Exists_cons. left.
  left. reflexivity.
Defined.

End LoaderExtras.

(** * Part VIII: further properties of the processor *)

Section ProcessorExtras.
Import SP.
Context `{E : Externals}.

(** ** Loading and construction as a whole *)

(** [load] by the two statuses of the library. *)
Lemma load_cases (path : string) (opts : sp_model_options) :
  load path opts
  = match code (LoadModelProto path).1 with
    | kOk =>
        if decide (code (processor_Load
                           (add_control_tokens opts (LoadModelProto path).2)).1 = kOk)
        then inr (processor_Load (add_control_tokens opts (LoadModelProto path).2)).2
        else inl (runtime_error
                    (message (processor_Load
                                (add_control_tokens opts (LoadModelProto path).2)).1))
    | kNotFound => inl (system_error no_such_file_or_directory)
    | kPermissionDenied => inl (system_error permission_denied)
    | _ => inl (runtime_error (message (LoadModelProto path).1))
    end.
Proof.
  unfold load. rewrite load_proto_cases.
  destruct (code (LoadModelProto path).1); try done.
  cbn [mbind except_bind]. apply load_processor_cases.
Qed.

(** X5.  [load] returns an engine exactly when the library read the model
    with an ok status and compiled the patched model with an ok status, and
    the engine is then the one compiled from the model read with
    [add_control_tokens] applied to it once. *)
Theorem load_returns_compiled_patch (path : string) (opts : sp_model_options)
    (e : SentencePieceProcessor) :
  load path opts = inr e <->
  code (LoadModelProto path).1 = kOk /\
  code (processor_Load (add_control_tokens opts (LoadModelProto path).2)).1 = kOk /\
  e = (processor_Load (add_control_tokens opts (LoadModelProto path).2)).2.
Proof.
  rewrite load_cases.
  destruct (code (LoadModelProto path).1) eqn:Hc;
    try (split; [intros Hx; discriminate Hx | by intros [? _]]).
  case_decide as Hp.
  - split; [by intros [= <-] | by intros (_ & _ & ->)].
  - split; [intros Hx; discriminate Hx | by intros (_ & ? & _)].
Qed.

(** X6.  Every way the constructor can fail: the model is not found, access
    to it is denied, it cannot be read for another reason, the patched
    model does not compile, or the engine reports a negative pad id.  The
    exception is then, in this order, the [std::system_error] of the first
    or the second [errc], or a [std::runtime_error] with the message of the
    failed status or the fixed message; never a [std::domain_error]. *)
Theorem constructor_failures (path : string) (opts : sp_model_options) (x : exception) :
  make_sp_processor path opts = inl x ->
  (code (LoadModelProto path).1 = kNotFound /\
   x = system_error no_such_file_or_directory) \/
  (code (LoadModelProto path).1 = kPermissionDenied /\
   x = system_error permission_denied) \/
  (code (LoadModelProto path).1 <> kOk /\
   x = runtime_error (message (LoadModelProto path).1)) \/
  (code (LoadModelProto path).1 = kOk /\
   code (processor_Load (add_control_tokens opts (LoadModelProto path).2)).1 <> kOk /\
   x = runtime_error
         (message (processor_Load (add_control_tokens opts (LoadModelProto path).2)).1)) \/
  (code (LoadModelProto path).1 = kOk /\
   code (processor_Load (add_control_tokens opts (LoadModelProto path).2)).1 = kOk /\
   conditional_cast int32_t
     (pad_id (processor_Load (add_control_tokens opts (LoadModelProto path).2)).2) < 0 /\
   x = runtime_error no_pad_message).
Proof.
  intros Hx. pose proof (load_cases path opts) as Hl.
  destruct (code (LoadModelProto path).1) eqn:Hc;
    try (rewrite (make_sp_processor_load_failed _ _ _ Hl) in Hx;
         injection Hx as <-; right; right; left; by split).
  - case_decide as Hp.
    + rewrite (make_sp_processor_loaded _ _ _ Hl) in Hx.
      case_decide as Hpad; [|done]. injection Hx as <-.
      right; right; right; right. done.
    + rewrite (make_sp_processor_load_failed _ _ _ Hl) in Hx. injection Hx as <-.
      right; right; right; left. done.
  - rewrite (make_sp_processor_load_failed _ _ _ Hl) in Hx. injection Hx as <-.
    by left.
  - rewrite (make_sp_processor_load_failed _ _ _ Hl) in Hx. injection Hx as <-.
    right; left. done.
Qed.

(** ** Lookups on a constructed processor *)

(** An index inside the vocabulary is given the surface of its piece. *)
Lemma index_to_token_inside (path : string) (opts : sp_model_options)
    (p : sp_processor) (idx : Z) :
  cast_exact -> make_sp_processor path opts = inr p -> engine_ok (native_ p) ->
  0 <= idx < vocab_size p ->
  exists sp : ModelProto_SentencePiece,
    engine_pieces (native_ p) !! Z.to_nat idx = Some sp /\
    index_to_token p idx = inr (piece sp).
Proof.
  intros Hcast Hp Hok Hidx.
  destruct (make_sp_processor_inv _ _ _ Hcast Hp Hok)
    as (_ & _ & _ & _ & _ & Hvs & _).
  pose proof (piece_size_int _ Hok) as Hsize. rewrite <- Hvs in Hsize.
  assert (representable int32_t idx) as Hrep by (unfold representable in *; lia).
  destruct (lookup_lt_is_Some_2 (engine_pieces (native_ p)) (Z.to_nat idx))
    as [sp Hsp]; [unfold GetPieceSize in Hvs; lia|].
  exists sp. split; [done|]. unfold index_to_token.
  rewrite (static_cast_size_t_int32 _ Hrep), (Hcast int_t) by done.
  rewrite (decide_True (P := 0 <= idx)) by lia.
  rewrite decide_False by lia. unfold IdToPiece. by rewrite Hsp.
Qed.

(** In a vocabulary of distinct surfaces [piece_index] finds each piece at
    its own index. *)
Lemma piece_index_lookup (l : list ModelProto_SentencePiece) (i : nat)
    (sp : ModelProto_SentencePiece) :
  NoDup (piece <$> l) -> l !! i = Some sp -> piece_index (piece sp) l = Some i.
Proof.
  revert i. induction l as [|sp0 l IH]; intros i Hnd Hi; [done|].
  cbn [fmap list_fmap] in Hnd. apply NoDup_cons in Hnd as [Hnin Hnd].
  cbn [piece_index]. destruct i as [|i]; cbn in Hi.
  - injection Hi as ->. by rewrite decide_True.
  - rewrite decide_False.
    + by rewrite (IH i Hnd Hi).
    + intros Heq. apply Hnin. rewrite Heq.
      apply list_elem_of_fmap_2. by eapply list_elem_of_lookup_2.
Qed.

(** X7.  The pad index of a constructed processor is an index of its
    vocabulary: it lies in [0, vocab_size), the vocabulary size is the
    piece count of the engine, and [index_to_token] of the pad index does
    not throw. *)
Theorem pad_idx_in_vocabulary (path : string) (opts : sp_model_options)
    (p : sp_processor) :
  cast_exact -> make_sp_processor path opts = inr p -> engine_ok (native_ p) ->
  0 <= pad_idx p < vocab_size p /\
  vocab_size p = Z.of_nat (length (engine_pieces (native_ p))) /\
  exists sp : ModelProto_SentencePiece,
    engine_pieces (native_ p) !! Z.to_nat (pad_idx p) = Some sp /\
    index_to_token p (pad_idx p) = inr (piece sp).
Proof.
  intros Hcast Hp Hok.
  destruct (make_sp_processor_inv _ _ _ Hcast Hp Hok)
    as (_ & _ & _ & _ & _ & Hvs & Hpad).
  split; [done|]. split; [done|]. by eapply index_to_token_inside.
Qed.

(** X8.  Round trip from a token: for a token that is the surface of a
    piece, [index_to_token] of what [token_to_index] returns is the token
    again (neither call throws). *)
Theorem token_index_token (path : string) (opts : sp_model_options)
    (p : sp_processor) (token : string) :
  cast_exact -> make_sp_processor path opts = inr p -> engine_ok (native_ p) ->
  (exists sp, sp ∈ engine_pieces (native_ p) /\ piece sp = token) ->
  exists id : Z,
    token_to_index p token = inr id /\ index_to_token p id = inr token.
Proof.
  intros Hcast Hp Hok (sp0 & Hin & Htok).
  destruct (make_sp_processor_inv _ _ _ Hcast Hp Hok)
    as (_ & _ & _ & _ & _ & Hvs & _).
  pose proof (piece_size_int _ Hok) as Hsize.
  unfold token_to_index, PieceToId.
  destruct (piece_index token (engine_pieces (native_ p))) as [i|] eqn:Hi.
  - apply piece_index_Some in Hi as (sp & Hsp & Hsurf).
    pose proof (lookup_lt_Some _ _ _ Hsp) as Hlt.
    unfold GetPieceSize in *.
    rewrite (Hcast int32_t) by (unfold representable in *; lia).
    exists (Z.of_nat i). split; [done|].
    destruct (index_to_token_inside path opts p (Z.of_nat i) Hcast Hp Hok)
      as (sp' & Hsp' & ->); [lia|].
    rewrite Nat2Z.id, Hsp in Hsp'. injection Hsp' as <-. by rewrite Hsurf.
  - by destruct (piece_index_None _ _ Hi sp0).
Qed.

(** X9.  Round trip from an index: when the pieces of the engine have
    distinct surfaces, [token_to_index] of what [index_to_token] returns
    for an index of the vocabulary is that index. *)
Theorem index_token_index (path : string) (opts : sp_model_options)
    (p : sp_processor) (idx : Z) :
  cast_exact -> make_sp_processor path opts = inr p -> engine_ok (native_ p) ->
  NoDup (piece <$> engine_pieces (native_ p)) ->
  0 <= idx < vocab_size p ->
  exists token : string,
    index_to_token p idx = inr token /\ token_to_index p token = inr idx.
Proof.
  intros Hcast Hp Hok Hnd Hidx.
  destruct (make_sp_processor_inv _ _ _ Hcast Hp Hok)
    as (_ & _ & _ & _ & _ & Hvs & _).
  pose proof (piece_size_int _ Hok) as Hsize. rewrite <- Hvs in Hsize.
  destruct (index_to_token_inside path opts p idx Hcast Hp Hok Hidx)
    as (sp & Hsp & Hit).
  exists (piece sp). split; [done|].
  unfold token_to_index, PieceToId.
  rewrite (piece_index_lookup _ _ _ Hnd Hsp), Z2Nat.id by lia.
  by rewrite (Hcast int32_t) by (unfold representable in *; lia).
Qed.

(** X10.  The legacy padding marker, end to end.  When the configuration
    holds ["<pad>@0"] and the engine keeps the pieces of the model it
    compiled, a constructed processor has the pad piece at index 0:
    [index_to_token 0] is ["<pad>"], [token_to_index "<pad>"] is 0, and the
    vocabulary holds the pieces of the model read and one piece for each
    token that is not empty. *)
Theorem legacy_pad_is_index_zero (path : string) (opts : sp_model_options)
    (p : sp_processor) :
  cast_exact -> make_sp_processor path opts = inr p -> engine_ok (native_ p) ->
  engine_pieces (native_ p)
  = pieces (add_control_tokens opts (LoadModelProto path).2) ->
  "<pad>@0" ∈ control_tokens opts ->
  index_to_token p 0 = inr "<pad>" /\
  token_to_index p "<pad>" = inr 0 /\
  vocab_size p
  = Z.of_nat (length (pieces (LoadModelProto path).2)
              + length (filter (fun token => token <> EmptyString)
                          (control_tokens opts))).
Proof.
  intros Hcast Hp Hok Hkeep Hin.
  destruct (make_sp_processor_inv _ _ _ Hcast Hp Hok)
    as (_ & _ & _ & _ & _ & Hvs & Hpad).
  assert (exists rest, engine_pieces (native_ p) = pad_control :: rest) as [rest Hhead].
  { rewrite Hkeep. destruct opts as [tokens]. cbn [control_tokens] in Hin.
    apply list_elem_of_split_r in Hin as (pre & post & -> & Hno).
    rewrite add_control_tokens_last_legacy by done. eauto. }
  split; [|split].
  - destruct (index_to_token_inside path opts p 0 Hcast Hp Hok) as (sp & Hsp & ->);
      [lia|].
    rewrite Hhead in Hsp. by injection Hsp as <-.
  - unfold token_to_index, PieceToId. rewrite Hhead. cbn [piece_index pad_control piece].
    rewrite decide_True by done.
    by rewrite (Hcast int32_t) by (unfold representable; lia).
  - rewrite Hvs. unfold GetPieceSize. rewrite Hkeep. f_equal.
    clear. destruct opts as [tokens]. unfold add_control_tokens. cbn [control_tokens].
    generalize ((LoadModelProto path).2). 
    induction tokens as [|token tokens IH]; intros proto_.
    + cbn. lia.
    + cbn [foldl]. rewrite IH.
      destruct (token_cases token) as [->|[->|[->|[Hn Hp]]]].
      * rewrite filter_cons_False by (by intros ?).
        by rewrite add_control_token_empty.
      * rewrite filter_cons_True by done. rewrite add_control_token_pad.
        cbn [pieces length]. rewrite length_app. cbn [length]. lia.
      * rewrite filter_cons_True by done. rewrite add_control_token_legacy_pad.
        cbn [pieces length]. lia.
      * rewrite filter_cons_True by done. rewrite add_control_token_other by done.
        cbn [pieces length]. rewrite length_app. cbn [length]. lia.
Qed.

End ProcessorExtras.

(** * Part IX: the further properties on concrete models *)

Section ExtraWitnesses.
Import SP.

Lemma constructor_failures_witness :
  (code (LoadModelProto (Externals := absent_externals) "missing.model").1 = kNotFound /\
   system_error no_such_file_or_directory = system_error no_such_file_or_directory) \/
  (code (LoadModelProto (Externals := absent_externals) "missing.model").1
   = kPermissionDenied /\
   system_error no_such_file_or_directory = system_error permission_denied) \/
  (code (LoadModelProto (Externals := absent_externals) "missing.model").1 <> kOk /\
   system_error no_such_file_or_directory
   = runtime_error (message (LoadModelProto (Externals := absent_externals)
                               "missing.model").1)) \/
  (code (LoadModelProto (Externals := absent_externals) "missing.model").1 = kOk /\
   code (processor_Load (Externals := absent_externals)
           (add_control_tokens (Build_options [])
              (LoadModelProto (Externals := absent_externals) "missing.model").2)).1
   <> kOk /\
   system_error no_such_file_or_directory
   = runtime_error
       (message (processor_Load (Externals := absent_externals)
                   (add_control_tokens (Build_options [])
                      (LoadModelProto (Externals := absent_externals)
                         "missing.model").2)).1)) \/
  (code (LoadModelProto (Externals := absent_externals) "missing.model").1 = kOk /\
   code (processor_Load (Externals := absent_externals)
           (add_control_tokens (Build_options [])
              (LoadModelProto (Externals := absent_externals) "missing.model").2)).1
   = kOk /\
   conditional_cast (Externals := absent_externals) int32_t
     (pad_id (processor_Load (Externals := absent_externals)
                (add_control_tokens (Build_options [])
                   (LoadModelProto (Externals := absent_externals)
                      "missing.model").2)).2) < 0 /\
   system_error no_such_file_or_directory = runtime_error no_pad_message).
Proof.
  apply (constructor_failures (E := absent_externals) "missing.model"
           (Build_options []) (system_error no_such_file_or_directory)).
  reflexivity.
Defined.

Lemma pad_idx_in_vocabulary_witness :
  0 <= pad_idx demo_processor < vocab_size demo_processor /\
  vocab_size demo_processor = Z.of_nat (length (engine_pieces demo_engine)) /\
  exists sp : ModelProto_SentencePiece,
    engine_pieces demo_engine !! Z.to_nat (pad_idx demo_processor) = Some sp /\
    index_to_token (E := demo_externals) demo_processor (pad_idx demo_processor)
    = inr (piece sp).
Proof.
  apply (pad_idx_in_vocabulary (E := demo_externals) "nllb.model" demo_options
           demo_processor demo_cast_exact eq_refl demo_engine_ok).
Defined.

Lemma token_index_token_witness :
  exists id : Z,
    token_to_index (E := demo_externals) demo_processor "b" = inr id /\
    index_to_token (E := demo_externals) demo_processor id = inr "b".
Proof.
  apply (token_index_token (E := demo_externals) "nllb.model" demo_options
           demo_processor "b" demo_cast_exact eq_refl demo_engine_ok).
  exists (Build_piece "b" (-2) NORMAL). split; [|reflexivity].
  cbn. do 3 (apply elem_of_cons; right). apply elem_of_cons. left. reflexivity.
Defined.

Lemma index_token_index_witness :
  exists token : string,
    index_to_token (E := demo_externals) demo_processor 2 = inr token /\
    token_to_index (E := demo_externals) demo_processor token = inr 2.
Proof.
  apply (index_token_index (E := demo_externals) "nllb.model" demo_options
           demo_processor 2 demo_cast_exact eq_refl demo_engine_ok).
  - apply (bool_decide_unpack _). vm_compute. exact I.
  - cbn. lia.
Defined.

Lemma legacy_pad_is_index_zero_witness :
  index_to_token (E := demo_externals) demo_processor 0 = inr "<pad>" /\
  token_to_index (E := demo_externals) demo_processor "<pad>" = inr 0 /\
  vocab_size demo_processor
  = Z.of_nat (length (pieces (LoadModelProto (Externals := demo_externals)
                                "nllb.model").2)
              + length (filter (fun token => token <> EmptyString)
                          (control_tokens demo_options))).
Proof.
  apply (legacy_pad_is_index_zero (E := demo_externals) "nllb.model" demo_options
           demo_processor demo_cast_exact eq_refl demo_engine_ok).
  - reflexivity.
  - apply elem_of_cons. left. reflexivity.
Defined.

End ExtraWitnesses.
